(** * litani: accumulating a build graph of jobs

    A shallow embedding of [litani.py]: the [add-job] subcommand appends a
    job record to the JSON cache [/tmp/litani_cache.json], the [run-build]
    subcommand compiles the cache into ninja rule and build statements.

    Modelling choices.
    - A Python [str] is a [string], the bytes of its UTF-8 encoding;
      iterating it yields its one-character strings.  A code point beyond
      ASCII is a run of bytes above 127, which no character class of the
      program contains, so that filtering bytes and filtering code points
      keep the same characters.
    - A job record (a JSON object of the cache) is a record of its four keys,
      each present or absent; the values have the types [add_job] gives them.
    - Python objects that are mutated after they have been stored elsewhere
      live in a heap and are referred to by address.
    - A subcommand is a computation over the process state (file system,
      standard output, heap) that returns, exits or raises. *)

From Stdlib Require Import ZArith NArith Ascii String List Lia.
From stdpp Require Import base option list strings.

(** ** Identifier sanitizer: [to_rule_name] *)

(** An item of a regular-expression character class. *)
Inductive class_item :=
  | Range (lo hi : ascii)
  | Lit (c : ascii).

Definition item_match (c : ascii) (it : class_item) : bool :=
  match it with
  | Range lo hi =>
      (N_of_ascii lo <=? N_of_ascii c)%N && (N_of_ascii c <=? N_of_ascii hi)%N
  | Lit c' => Ascii.eqb c c'
  end.

Definition class_match (cls : list class_item) (c : ascii) : bool :=
  existsb (item_match c) cls.

(** [re.compile(r"[a-zA-Z0-9_]")] *)
Definition allowed : list class_item :=
  [Range "a" "z"; Range "A" "Z"; Range "0" "9"; Lit "_"]%char.

(** [pattern.match(i)] for a pattern that is a single character class: the
    class has to match the first character of [i]; the result is used for its
    truth value only. *)
Definition re_match (cls : list class_item) (i : string) : bool :=
  match i with
  | EmptyString => false
  | String c _ => class_match cls c
  end.

(** [for i in string]: the one-character strings of a [str]. *)
Fixpoint iter_str (s : string) : list string :=
  match s with
  | EmptyString => []
  | String c s' => String c EmptyString :: iter_str s'
  end.

(** [sep.join(parts)] *)
Fixpoint join (sep : string) (parts : list string) : string :=
  match parts with
  | [] => EmptyString
  | [p] => p
  | p :: ps => p +:+ sep +:+ join sep ps
  end.

(** [def to_rule_name(string)] *)
Definition to_rule_name (string : String.string) : String.string :=
  join EmptyString (filter (λ i, re_match allowed i = true) (iter_str string)).

(** *** The sanitizer as the specification words it *)

Definition ascii_letters : string :=
  "abcdefghijklmnopqrstuvwxyzABCDEFGHIJKLMNOPQRSTUVWXYZ".
Definition digits : string := "0123456789".

(** "ASCII letters, digits, and underscore" *)
Definition spec_ident_char (c : ascii) : bool :=
  existsb (Ascii.eqb c) (list_ascii_of_string (ascii_letters +:+ digits +:+ "_")).

(** "retaining only ASCII letters, digits, and underscore, preserving relative
    order, dropping every other character" *)
Fixpoint spec_sanitize (s : string) : string :=
  match s with
  | EmptyString => EmptyString
  | String c s' =>
      if spec_ident_char c then String c (spec_sanitize s') else spec_sanitize s'
  end.

(** [sub] is obtained from a string by dropping some of its characters. *)
Inductive Subsequence : string → string → Prop :=
  | Subsequence_nil : Subsequence EmptyString EmptyString
  | Subsequence_keep c sub s :
      Subsequence sub s → Subsequence (String c sub) (String c s)
  | Subsequence_drop c sub s :
      Subsequence sub s → Subsequence sub (String c s).

(** The class of the specification's pattern [^[A-Za-z0-9_]*$]. *)
Definition spec_class : list class_item :=
  [Range "A" "Z"; Range "a" "z"; Range "0" "9"; Lit "_"]%char.

(** A string matches [^cls*$] when all its characters are in the class.  (The
    class holds no newline, so [$] before a final newline does not arise.) *)
Fixpoint match_star_anchored (cls : list class_item) (s : string) : bool :=
  match s with
  | EmptyString => true
  | String c s' => class_match cls c && match_star_anchored cls s'
  end.

(** ** Data model *)

(** [_ci_stages] *)
Definition _ci_stages : list string := ["build"; "test"; "report"].

(** The [argparse] namespace of [add-job], one field per flag of
    [get_add_job_args]. *)
Module Args.
Record t := mk {
  inputs : list string;            (* -i, --inputs, nargs="+" *)
  command : string;                (* -c, --command *)
  outputs : list string;           (* -o, --outputs, nargs="+" *)
  pipeline_name : string;          (* -p, --pipeline-name *)
  ci_stage : string;               (* -s, --ci-stage, one of _ci_stages *)
  timeout : option Z;              (* --timeout, type=int *)
  timeout_ok : bool;               (* --timeout-ok, store_true *)
  ok_returns : option (list string); (* --ok-returns, nargs="+" *)
  description : option string;     (* --description *)
  verbose : bool;                  (* -v, --verbose *)
  very_verbose : bool;             (* -w, --very-verbose *)
}.
End Args.

(** A job record of the cache: a JSON object with the keys [inputs],
    [outputs], [command] and [description], each present or absent. *)
Module Entry.
Record t := mk {
  inputs : option (list string);
  outputs : option (list string);
  command : option string;
  description : option string;
}.

Definition present {A} (field : option A) : bool :=
  match field with Some _ => true | None => false end.

(** [key in entry] *)
Definition contains (entry : t) (key : string) : bool :=
  if String.eqb key "inputs" then present (inputs entry)
  else if String.eqb key "outputs" then present (outputs entry)
  else if String.eqb key "command" then present (command entry)
  else if String.eqb key "description" then present (description entry)
  else false.

(** [entry["description"] = value] *)
Definition set_description (value : string) (entry : t) : t :=
  {| inputs := inputs entry; outputs := outputs entry;
     command := command entry; description := Some value |}.

(** A job record that carries its three required keys. *)
Definition valid (entry : t) : Prop :=
  is_Some (inputs entry) ∧ is_Some (outputs entry) ∧ is_Some (command entry).
End Entry.

(** The keyword arguments of [ninja.rule]. *)
Module Rule.
Record t := mk { name : string; description : string; command : string }.
End Rule.

(** The keyword arguments of [ninja.build]. *)
Module Build.
Record t := mk { inputs : list string; outputs : list string; rule : string }.
End Build.

(** *** Files *)

(** The text [json.dump(cache, handle, indent=...)] writes for a cache
    [{"jobs": [...]}], and what [json.load] reads back from it. *)
Record JsonFile := { indent : option nat; jobs : list Entry.t }.

(** A call of the ninja writer. *)
Inductive ninja_stmt :=
  | NinjaRule (rule : Rule.t)      (* ninja.rule, keywords from rule *)
  | NinjaBuild (build : Build.t).  (* ninja.build, keywords from build *)

(** What a [ninja_syntax.Writer(handle, width=...)] has been asked to write. *)
Record NinjaFile := { width : nat; stmts : list ninja_stmt }.

Definition cache_path : string := "/tmp/litani_cache.json".

(** The two files of the program: [None] when the file does not exist. *)
Record FS := {
  litani_cache : option JsonFile;   (* /tmp/litani_cache.json *)
  litani_ninja : option NinjaFile;  (* litani.ninja *)
}.

(** *** Python objects *)

Definition addr := nat.

Inductive object :=
  | DictCache (jobs : addr)       (* {"jobs": <list>} *)
  | ListObj (items : list addr)   (* a list of job records *)
  | DictEntry (entry : Entry.t).  (* a job record *)

(** *** Processes *)

Inductive exn :=
  | FileNotFoundError (path : string)
  | KeyError (key : string)
  | TypeError
  | AttributeError.

Inductive signal :=
  | SystemExit (status : Z)
  | Exception (e : exn).

Record process := Process {
  fs : FS;
  stdout : list Entry.t;   (* the records printed so far *)
  heap : list object;
}.

(** A computation returns a value or stops with a signal, and leaves a
    process state. *)
Definition Py (A : Type) : Type := process → (signal + A) * process.

Global Instance Py_ret : MRet Py := λ A x p, (inr x, p).
Global Instance Py_bind : MBind Py := λ A B f m p,
  match m p with
  | (inr x, p') => f x p'
  | (inl sig, p') => (inl sig, p')
  end.

Definition raise {A} (e : exn) : Py A := λ p, (inl (Exception e), p).

(** [exit(status)] *)
Definition exit {A} (status : Z) : Py A := λ p, (inl (SystemExit status), p).

Definition get_heap : Py (list object) := λ p, (inr (heap p), p).
Definition put_heap (h : list object) : Py unit := λ p,
  (inr tt, {| fs := fs p; stdout := stdout p; heap := h |}).
Definition get_fs : Py FS := λ p, (inr (fs p), p).
Definition put_fs (f : FS) : Py unit := λ p,
  (inr tt, {| fs := f; stdout := stdout p; heap := heap p |}).

(** A fresh object. *)
Definition alloc (o : object) : Py addr :=
  h ← get_heap; put_heap (h ++ [o]);; mret (length h).

Definition deref (a : addr) : Py object :=
  h ← get_heap;
  match h !! a with
  | Some o => mret o
  | None => raise TypeError
  end.

Definition as_entry (a : addr) : Py Entry.t :=
  o ← deref a;
  match o with DictEntry e => mret e | _ => raise TypeError end.

Definition write_stdout (e : Entry.t) : Py unit := λ p,
  (inr tt, {| fs := fs p; stdout := stdout p ++ [e]; heap := heap p |}).

(** [print(entry)] *)
Definition print (entry : addr) : Py unit :=
  e ← as_entry entry; write_stdout e.

(** [cache["jobs"]] *)
Definition getitem_jobs (cache : addr) : Py addr :=
  o ← deref cache;
  match o with DictCache l => mret l | _ => raise TypeError end.

(** The items of a list object. *)
Definition list_items (l : addr) : Py (list addr) :=
  o ← deref l;
  match o with ListObj items => mret items | _ => raise TypeError end.

(** [l.append(x)] *)
Definition list_append (l x : addr) : Py unit :=
  o ← deref l;
  match o with
  | ListObj items => h ← get_heap; put_heap (<[l := ListObj (items ++ [x])]> h)
  | _ => raise AttributeError
  end.

(** [key in entry] *)
Definition dict_contains (entry : addr) (key : string) : Py bool :=
  e ← as_entry entry; mret (Entry.contains e key).

(** [entry[key]]: [KeyError] when the key is absent. *)
Definition getitem {A} (field : Entry.t → option A) (key : string)
    (entry : addr) : Py A :=
  e ← as_entry entry;
  match field e with Some v => mret v | None => raise (KeyError key) end.

(** [entry["description"] = value] *)
Definition setitem_description (entry : addr) (value : string) : Py unit :=
  e ← as_entry entry;
  h ← get_heap; put_heap (<[entry := DictEntry (Entry.set_description value e)]> h).

(** [with open("/tmp/litani_cache.json") as handle] *)
Definition open_cache : Py JsonFile :=
  f ← get_fs;
  match litani_cache f with
  | Some text => mret text
  | None => raise (FileNotFoundError cache_path)
  end.

(** [json.load(handle)]: the objects of the document are fresh, the inner
    ones first. *)
Definition json_load (handle : JsonFile) : Py addr :=
  entries ← mapM (λ e, alloc (DictEntry e)) (jobs handle);
  l ← alloc (ListObj entries);
  alloc (DictCache l).

(** [with open("/tmp/litani_cache.json", "w") as handle:
       json.dump(cache, handle, indent=indent)] *)
Definition json_dump (cache : addr) (indent : option nat) : Py unit :=
  l ← getitem_jobs cache;
  items ← list_items l;
  entries ← mapM as_entry items;
  f ← get_fs;
  put_fs {| litani_cache := Some {| indent := indent; jobs := entries |};
            litani_ninja := litani_ninja f |}.

(** [try: body except FileNotFoundError: handler] *)
Definition try_except_FileNotFoundError {A} (body handler : Py A) : Py A := λ p,
  match body p with
  | (inl (Exception (FileNotFoundError _)), p') => handler p'
  | r => r
  end.

(** ** The subcommands *)

(** [if value:] for a value that is [None] or a [str]. *)
Definition truthy (value : option string) : bool :=
  match value with
  | Some (String _ _) => true
  | _ => false
  end.

(** [def add_job(args)] *)
Definition add_job (args : Args.t) : Py unit :=
  cache ← try_except_FileNotFoundError
    (handle ← open_cache; json_load handle)
    (l ← alloc (ListObj []); alloc (DictCache l));
  entry ← alloc (DictEntry {|
    Entry.inputs := Some (Args.inputs args);
    Entry.outputs := Some (Args.outputs args);
    Entry.command := Some (Args.command args);
    Entry.description := None |});
  l ← getitem_jobs cache;
  list_append l entry;;
  (if truthy (Args.description args)
   then setitem_description entry (default EmptyString (Args.description args))
   else mret tt);;
  json_dump cache (Some 2).

Definition required_keys : list string := ["inputs"; "outputs"; "command"].

(** [for required in [...]: if required not in entry: print(entry); exit(1)] *)
Fixpoint check_required (entry : addr) (keys : list string) : Py unit :=
  match keys with
  | [] => mret tt
  | required :: keys' =>
      found ← dict_contains entry required;
      (if negb found then print entry;; exit 1 else mret tt);;
      check_required entry keys'
  end.

(** The body of [for entry in cache["jobs"]], with the lists [rules] and
    [builds] it appends to. *)
Fixpoint for_entries (entries : list addr)
    (rules : list Rule.t) (builds : list Build.t)
    : Py (list Rule.t * list Build.t) :=
  match entries with
  | [] => mret (rules, builds)
  | entry :: entries' =>
      check_required entry required_keys;;
      described ← dict_contains entry "description";
      description ←
        (if described : bool then getitem Entry.description "description" entry
         else command ← getitem Entry.command "command" entry;
              mret ("Running '" +:+ command +:+ "...'"));
      command ← getitem Entry.command "command" entry;
      let rule_name := to_rule_name command in
      let rules := rules ++ [{|
        Rule.name := rule_name;
        Rule.description := description;
        Rule.command := command |}] in
      inputs ← getitem Entry.inputs "inputs" entry;
      outputs ← getitem Entry.outputs "outputs" entry;
      let builds := builds ++ [{|
        Build.inputs := inputs;
        Build.outputs := outputs;
        Build.rule := rule_name |}] in
      for_entries entries' rules builds
  end.

(** [with open("litani.ninja", "w") as handle]: the rules, then the builds. *)
Definition write_ninja (rules : list Rule.t) (builds : list Build.t) : Py unit :=
  f ← get_fs;
  put_fs {| litani_cache := litani_cache f;
            litani_ninja := Some {|
              width := 70;
              stmts := map NinjaRule rules ++ map NinjaBuild builds |} |}.

(** [def run_build(_)] *)
Definition run_build {A} (_ : A) : Py unit :=
  handle ← open_cache;
  cache ← json_load handle;
  l ← getitem_jobs cache;
  entries ← list_items l;
  '(rules, builds) ← for_entries entries [] [];
  write_ninja rules builds.

(** *** The command line *)

Inductive subcommand :=
  | AddJob (args : Args.t)   (* litani add-job ... *)
  | RunBuild.                (* litani run-build *)

(** [def main()]: [args.func(args)] *)
Definition main (args : subcommand) : Py unit :=
  match args with
  | AddJob a => add_job a
  | RunBuild => run_build args
  end.

(** What a finished process leaves behind. *)
Record result := {
  outcome : signal + unit;
  printed : list Entry.t;
  files : FS;
}.

(** One invocation: a fresh process over the file system [f]. *)
Definition run (m : Py unit) (f : FS) : result :=
  let '(r, p) := m {| fs := f; stdout := []; heap := [] |} in
  {| outcome := r; printed := stdout p; files := fs p |}.

(** The exit status of the interpreter: [0] on return, the argument of
    [exit], [1] on an uncaught exception. *)
Definition exit_status (r : result) : Z :=
  match outcome r with
  | inr _ => 0
  | inl (SystemExit status) => status
  | inl (Exception _) => 1
  end.

(** Invocations one after the other, each on the files the previous left. *)
Definition run_all (ms : list (Py unit)) (f : FS) : FS :=
  foldl (λ f m, files (run m f)) f ms.

(** ** The subcommands as functions of the registry *)

(** The job records of the cache file; none when the file does not exist. *)
Definition registry (f : FS) : list Entry.t :=
  match litani_cache f with
  | Some text => jobs text
  | None => []
  end.

(** A namespace that [parse_args] can return for [add-job]: a flag with
    [nargs="+"] has at least one value, the CI stage is one of the choices. *)
Definition parsed (args : Args.t) : Prop :=
  Args.inputs args ≠ []
  ∧ Args.outputs args ≠ []
  ∧ Args.ci_stage args ∈ _ci_stages
  ∧ Args.ok_returns args ≠ Some [].

(** The job of an [add-job] invocation: its inputs, outputs and command, and
    its description when one is given and is not empty. *)
Definition job_record (args : Args.t) : Entry.t :=
  {| Entry.inputs := Some (Args.inputs args);
     Entry.outputs := Some (Args.outputs args);
     Entry.command := Some (Args.command args);
     Entry.description :=
       if truthy (Args.description args) then Args.description args else None |}.

(** The rule and the build statement of one job record, [None] when a
    required key is missing. *)
Definition compile_entry (e : Entry.t) : option (Rule.t * Build.t) :=
  match Entry.inputs e, Entry.outputs e, Entry.command e with
  | Some inputs, Some outputs, Some command =>
      Some ({| Rule.name := to_rule_name command;
               Rule.description :=
                 default ("Running '" +:+ command +:+ "...'") (Entry.description e);
               Rule.command := command |},
            {| Build.inputs := inputs;
               Build.outputs := outputs;
               Build.rule := to_rule_name command |})
  | _, _, _ => None
  end.

(** The loop of [run_build] over job records: the rules and builds so far
    extended in order, or the first record with a missing key. *)
Fixpoint compile (es : list Entry.t) (rules : list Rule.t) (builds : list Build.t)
    : Entry.t + list Rule.t * list Build.t :=
  match es with
  | [] => inr (rules, builds)
  | e :: es' =>
      match compile_entry e with
      | Some (r, b) => compile es' (rules ++ [r]) (builds ++ [b])
      | None => inl e
      end
  end.

(** The heap after [json.load] in a fresh process. *)
Definition loaded_heap (es : list Entry.t) : list object :=
  (DictEntry <$> es) ++ [ListObj (seq 0 (length es)); DictCache (length es)].

(** The namespace with other job-control and verbosity attributes. *)
Definition with_attributes (pipeline_name ci_stage : string) (timeout : option Z)
    (timeout_ok : bool) (ok_returns : option (list string))
    (verbose very_verbose : bool) (args : Args.t) : Args.t :=
  {| Args.inputs := Args.inputs args;
     Args.command := Args.command args;
     Args.outputs := Args.outputs args;
     Args.pipeline_name := pipeline_name;
     Args.ci_stage := ci_stage;
     Args.timeout := timeout;
     Args.timeout_ok := timeout_ok;
     Args.ok_returns := ok_returns;
     Args.description := Args.description args;
     Args.verbose := verbose;
     Args.very_verbose := very_verbose |}.

(** The namespace with another [--description]. *)
Definition with_description (description : option string) (args : Args.t) : Args.t :=
  {| Args.inputs := Args.inputs args;
     Args.command := Args.command args;
     Args.outputs := Args.outputs args;
     Args.pipeline_name := Args.pipeline_name args;
     Args.ci_stage := Args.ci_stage args;
     Args.timeout := Args.timeout args;
     Args.timeout_ok := Args.timeout_ok args;
     Args.ok_returns := Args.ok_returns args;
     Args.description := description;
     Args.verbose := Args.verbose args;
     Args.very_verbose := Args.very_verbose args |}.

Global Instance Entry_valid_dec (e : Entry.t) : Decision (Entry.valid e) :=
  decide (is_Some (Entry.inputs e) ∧ is_Some (Entry.outputs e)
          ∧ is_Some (Entry.command e)).

(** *** Scenarios *)

(** No file exists yet. *)
Definition no_files : FS := {| litani_cache := None; litani_ninja := None |}.

(** [add-job -i a.c -c "gcc -c a.c -o a.o" -o a.o], with the two required
    job-control flags. *)
Definition scenario_1 (pipeline_name ci_stage : string) : Args.t :=
  {| Args.inputs := ["a.c"];
     Args.command := "gcc -c a.c -o a.o";
     Args.outputs := ["a.o"];
     Args.pipeline_name := pipeline_name;
     Args.ci_stage := ci_stage;
     Args.timeout := None;
     Args.timeout_ok := false;
     Args.ok_returns := None;
     Args.description := None;
     Args.verbose := false;
     Args.very_verbose := false |}.

(** A job record with the three required keys. *)
Definition job (inputs : list string) (command : string) (outputs : list string)
    : Entry.t :=
  {| Entry.inputs := Some inputs;
     Entry.outputs := Some outputs;
     Entry.command := Some command;
     Entry.description := None |}.

(** A cache file with the given job records. *)
Definition cache_with (es : list Entry.t) : FS :=
  {| litani_cache := Some {| indent := Some 2; jobs := es |};
     litani_ninja := None |}.

(** The job record an invocation adds to the registry, if any. *)
Definition added_job (args : subcommand) : option Entry.t :=
  match args with
  | AddJob a => Some (job_record a)
  | RunBuild => None
  end.

(** * Proofs *)

(** ** The sanitizer *)

Lemma join_empty_cons (c : ascii) (ps : list string) :
  join EmptyString (String c EmptyString :: ps) = String c (join EmptyString ps).
Proof. destruct ps; reflexivity. Qed.

Lemma to_rule_name_cons (c : ascii) (s : string) :
  to_rule_name (String c s) =
  if class_match allowed c then String c (to_rule_name s) else to_rule_name s.
Proof.
  unfold to_rule_name. cbn [iter_str]. rewrite filter_cons.
  cbn [re_match]. destruct (class_match allowed c) eqn:E.
  - rewrite decide_True by reflexivity. apply join_empty_cons.
  - rewrite decide_False by discriminate. reflexivity.
Qed.

Lemma ascii_forall (P : ascii → Prop) :
  (∀ b0 b1 b2 b3 b4 b5 b6 b7, P (Ascii b0 b1 b2 b3 b4 b5 b6 b7)) → ∀ c, P c.
Proof. intros H [b0 b1 b2 b3 b4 b5 b6 b7]. apply H. Qed.

(** The class of the code is the alphabet of the specification. *)
Lemma allowed_spec_ident_char (c : ascii) :
  class_match allowed c = spec_ident_char c.
Proof.
  revert c. apply ascii_forall.
  intros [] [] [] [] [] [] [] []; vm_compute; reflexivity.
Qed.

Lemma spec_class_allowed (c : ascii) :
  class_match spec_class c = class_match allowed c.
Proof.
  revert c. apply ascii_forall.
  intros [] [] [] [] [] [] [] []; vm_compute; reflexivity.
Qed.

Lemma to_rule_name_spec_sanitize (s : string) :
  to_rule_name s = spec_sanitize s.
Proof.
  induction s as [|c s IH]; [reflexivity|].
  rewrite to_rule_name_cons, allowed_spec_ident_char. cbn [spec_sanitize].
  rewrite IH. reflexivity.
Qed.

Lemma to_rule_name_subsequence (s : string) : Subsequence (to_rule_name s) s.
Proof.
  induction s as [|c s IH]; [constructor|].
  rewrite to_rule_name_cons. destruct (class_match allowed c); by constructor.
Qed.

Lemma to_rule_name_chars (s : string) :
  list_ascii_of_string (to_rule_name s) =
  filter (λ c, spec_ident_char c = true) (list_ascii_of_string s).
Proof.
  induction s as [|c s IH]; [reflexivity|].
  rewrite to_rule_name_cons, allowed_spec_ident_char.
  cbn [list_ascii_of_string]. rewrite filter_cons.
  destruct (spec_ident_char c) eqn:E.
  - rewrite decide_True by reflexivity. cbn [list_ascii_of_string]. by rewrite IH.
  - rewrite decide_False by discriminate. exact IH.
Qed.

Lemma to_rule_name_matches (s : string) :
  match_star_anchored spec_class (to_rule_name s) = true.
Proof.
  induction s as [|c s IH]; [reflexivity|].
  rewrite to_rule_name_cons. destruct (class_match allowed c) eqn:E; [|exact IH].
  cbn [match_star_anchored]. rewrite spec_class_allowed, E, IH. reflexivity.
Qed.

(** C3. For every string [s], [to_rule_name s] is defined (the function is
    total) and is exactly the subsequence of the characters of [s] that are
    ASCII letters, digits or underscore, in their original order: it is the
    specification's filter, obtained from [s] by dropping characters only, its
    characters are those of [s] that lie in the alphabet, and it matches
    [^[A-Za-z0-9_]*$].  [to_rule_name] reads and writes no state: its result
    is a function of [s] alone. *)
Theorem to_rule_name_sanitizes (s : string) :
  to_rule_name s = spec_sanitize s
  ∧ Subsequence (to_rule_name s) s
  ∧ list_ascii_of_string (to_rule_name s) =
      filter (λ c, spec_ident_char c = true) (list_ascii_of_string s)
  ∧ match_star_anchored spec_class (to_rule_name s) = true.
Proof.
  split; [apply to_rule_name_spec_sanitize|].
  split; [apply to_rule_name_subsequence|].
  split; [apply to_rule_name_chars|].
  apply to_rule_name_matches.
Qed.

(** ** Evaluating computations *)

Lemma bind_return {A B} (m : Py A) (k : A → Py B) p x p' :
  m p = (inr x, p') → (m ≫= k) p = k x p'.
Proof. intros E. unfold mbind, Py_bind. by rewrite E. Qed.

Lemma bind_signal {A B} (m : Py A) (k : A → Py B) p sig p' :
  m p = (inl sig, p') → (m ≫= k) p = (inl sig, p').
Proof. intros E. unfold mbind, Py_bind. by rewrite E. Qed.

(** Run the first computation of the goal, which [H] evaluates. *)
Tactic Notation "step" uconstr(H) := rewrite (bind_return _ _ _ _ _ H).
Tactic Notation "stop" uconstr(H) := rewrite (bind_signal _ _ _ _ _ H).

Section heap.
Context (f : FS) (out : list Entry.t).

Lemma alloc_eval h o : alloc o (Process f out h) = (inr (length h), Process f out (h ++ [o])).
Proof. reflexivity. Qed.

Lemma deref_eval h a o : h !! a = Some o → deref a (Process f out h) = (inr o, Process f out h).
Proof. intros E. unfold deref, mbind, Py_bind, get_heap. cbn. by rewrite E. Qed.

Lemma as_entry_eval h a e :
  h !! a = Some (DictEntry e) → as_entry a (Process f out h) = (inr e, Process f out h).
Proof. intros E. unfold as_entry. by step (deref_eval _ _ _ E). Qed.

Lemma getitem_jobs_eval h a l :
  h !! a = Some (DictCache l) → getitem_jobs a (Process f out h) = (inr l, Process f out h).
Proof. intros E. unfold getitem_jobs. by step (deref_eval _ _ _ E). Qed.

Lemma list_items_eval h a items :
  h !! a = Some (ListObj items) → list_items a (Process f out h) = (inr items, Process f out h).
Proof. intros E. unfold list_items. by step (deref_eval _ _ _ E). Qed.

Lemma list_append_eval h l items x :
  h !! l = Some (ListObj items) →
  list_append l x (Process f out h) = (inr tt, Process f out (<[l := ListObj (items ++ [x])]> h)).
Proof. intros E. unfold list_append. by step (deref_eval _ _ _ E). Qed.

Lemma setitem_description_eval h a e d :
  h !! a = Some (DictEntry e) →
  setitem_description a d (Process f out h) =
  (inr tt, Process f out (<[a := DictEntry (Entry.set_description d e)]> h)).
Proof. intros E. unfold setitem_description. by step (as_entry_eval _ _ _ E). Qed.

Lemma dict_contains_eval h a e key :
  h !! a = Some (DictEntry e) →
  dict_contains a key (Process f out h) = (inr (Entry.contains e key), Process f out h).
Proof. intros E. unfold dict_contains. by step (as_entry_eval _ _ _ E). Qed.

Lemma mapM_alloc_entries h es :
  mapM (λ e, alloc (DictEntry e)) es (Process f out h) =
  (inr (seq (length h) (length es)), Process f out (h ++ (DictEntry <$> es))).
Proof.
  revert h. induction es as [|e es IH]; intros h.
  - cbn. by rewrite app_nil_r.
  - cbn [mapM]. step (alloc_eval _ _).
    step (IH _). cbn.
    rewrite length_app, Nat.add_1_r, <- app_assoc. reflexivity.
Qed.

Lemma mapM_as_entry h refs es :
  Forall2 (λ a e, h !! a = Some (DictEntry e)) refs es →
  mapM as_entry refs (Process f out h) = (inr es, Process f out h).
Proof.
  induction 1 as [|a e refs es E _ IH]; [reflexivity|].
  cbn [mapM]. step (as_entry_eval _ _ _ E).
  by step IH.
Qed.
End heap.

(** The addresses [json.load] gives the job records refer to them. *)
Lemma loaded_entries (pre : list object) (es : list Entry.t) (post : list object) :
  Forall2 (λ a e, (pre ++ (DictEntry <$> es) ++ post) !! a = Some (DictEntry e))
    (seq (length pre) (length es)) es.
Proof.
  apply Forall2_same_length_lookup. split; [by rewrite length_seq|].
  intros i a e Ha He. apply lookup_seq in Ha as [-> Hi].
  rewrite lookup_app_r by lia. rewrite lookup_app_l by (rewrite length_fmap; lia).
  replace (length pre + i - length pre) with i by lia.
  by rewrite list_lookup_fmap, He.
Qed.

(** ** [json.load] and [json.dump] *)

Lemma open_cache_eval (f : FS) (out : list Entry.t) (h : list object) :
  open_cache (Process f out h) =
  match litani_cache f with
  | Some text => (inr text, Process f out h)
  | None => (inl (Exception (FileNotFoundError cache_path)), Process f out h)
  end.
Proof. unfold open_cache, mbind, Py_bind, get_fs. cbn. by destruct (litani_cache f). Qed.

Lemma json_load_eval (f : FS) (out : list Entry.t) (text : JsonFile) :
  json_load text (Process f out []) =
  (inr (S (length (jobs text))), Process f out (loaded_heap (jobs text))).
Proof.
  unfold json_load.
  step (mapM_alloc_entries f out [] (jobs text)).
  cbn [app length].
  step (alloc_eval f out _ _).
  rewrite alloc_eval, !length_app, length_fmap. cbn [length].
  rewrite Nat.add_1_r, <- app_assoc. reflexivity.
Qed.

Lemma loaded_heap_entries (es : list Entry.t) (post : list object) :
  Forall2 (λ a e, (loaded_heap es ++ post) !! a = Some (DictEntry e))
    (seq 0 (length es)) es.
Proof. unfold loaded_heap. rewrite <- app_assoc. apply (loaded_entries [] es). Qed.

Lemma loaded_heap_list (es : list Entry.t) (post : list object) :
  (loaded_heap es ++ post) !! length es = Some (ListObj (seq 0 (length es))).
Proof.
  unfold loaded_heap. rewrite <- app_assoc.
  apply list_lookup_middle. by rewrite length_fmap.
Qed.

Lemma loaded_heap_cache (es : list Entry.t) (post : list object) :
  (loaded_heap es ++ post) !! S (length es) = Some (DictCache (length es)).
Proof.
  unfold loaded_heap. rewrite <- app_assoc.
  rewrite lookup_app_r by (rewrite length_fmap; lia).
  rewrite length_fmap. by replace (S (length es) - length es) with 1 by lia.
Qed.

Lemma loaded_heap_length (es : list Entry.t) :
  length (loaded_heap es) = S (S (length es)).
Proof. unfold loaded_heap. rewrite length_app, length_fmap. cbn. lia. Qed.

(** ** [add_job] appends the job of its arguments to the registry *)

(** The heap of [add_job] when it dumps the cache: the loaded objects with the
    new record appended to the list, and the new record. *)
Lemma add_job_heap (es : list Entry.t) (e : Entry.t) :
  let h := <[length es := ListObj (seq 0 (length es) ++ [S (S (length es))])]>
             (loaded_heap es ++ [DictEntry e]) in
  h !! S (length es) = Some (DictCache (length es))
  ∧ h !! length es = Some (ListObj (seq 0 (length es) ++ [S (S (length es))]))
  ∧ h !! S (S (length es)) = Some (DictEntry e)
  ∧ Forall2 (λ a e', h !! a = Some (DictEntry e')) (seq 0 (length es)) es.
Proof.
  intros h. subst h.
  assert (Hlen : length es < length (loaded_heap es ++ [DictEntry e])).
  { rewrite length_app, loaded_heap_length. lia. }
  repeat split.
  - rewrite list_lookup_insert_ne by lia. apply loaded_heap_cache.
  - by apply list_lookup_insert_eq.
  - rewrite list_lookup_insert_ne by lia.
    rewrite lookup_app_r by (rewrite loaded_heap_length; lia).
    rewrite loaded_heap_length. by rewrite Nat.sub_diag.
  - eapply Forall2_impl; [apply (loaded_heap_entries es [DictEntry e])|].
    cbn. intros a e' Ha.
    destruct (decide (a = length es)) as [->|Hne].
    + rewrite loaded_heap_list in Ha. discriminate.
    + by rewrite list_lookup_insert_ne.
Qed.

Lemma load_or_create_eval (f : FS) (out : list Entry.t) :
  try_except_FileNotFoundError
    (handle ← open_cache; json_load handle)
    (l ← alloc (ListObj []); alloc (DictCache l)) (Process f out []) =
  (inr (S (length (registry f))), Process f out (loaded_heap (registry f))).
Proof.
  unfold try_except_FileNotFoundError, registry.
  destruct (litani_cache f) as [text|] eqn:E.
  - rewrite (bind_return _ _ _ text (Process f out [])).
    + by rewrite json_load_eval.
    + by rewrite open_cache_eval, E.
  - rewrite (bind_signal _ _ _ (Exception (FileNotFoundError cache_path))
               (Process f out [])).
    + reflexivity.
    + by rewrite open_cache_eval, E.
Qed.

Lemma json_dump_eval (f : FS) (out : list Entry.t) (es : list Entry.t)
    (e : Entry.t) (indent : option nat) :
  json_dump (S (length es)) indent
    (Process f out
       (<[length es := ListObj (seq 0 (length es) ++ [S (S (length es))])]>
          (loaded_heap es ++ [DictEntry e]))) =
  (inr tt,
   Process {| litani_cache := Some {| indent := indent; jobs := es ++ [e] |};
              litani_ninja := litani_ninja f |} out
     (<[length es := ListObj (seq 0 (length es) ++ [S (S (length es))])]>
        (loaded_heap es ++ [DictEntry e]))).
Proof.
  destruct (add_job_heap es e) as (Hcache & Hlist & Hentry & Hentries).
  unfold json_dump.
  step (getitem_jobs_eval f out _ _ _ Hcache).
  step (list_items_eval f out _ _ _ Hlist).
  erewrite bind_return; cycle 1.
  { apply mapM_as_entry, Forall2_app; [exact Hentries|]. by constructor. }
  reflexivity.
Qed.

Lemma add_job_eval (args : Args.t) (f : FS) :
  run (add_job args) f =
  {| outcome := inr tt;
     printed := [];
     files := {| litani_cache :=
                   Some {| indent := Some 2;
                           jobs := registry f ++ [job_record args] |};
                 litani_ninja := litani_ninja f |} |}.
Proof.
  unfold run, add_job.
  step (load_or_create_eval f []).
  set (es := registry f).
  step (alloc_eval f [] _ _).
  rewrite loaded_heap_length.
  step (getitem_jobs_eval f [] _ _ _ (loaded_heap_cache es _)).
  step (list_append_eval f [] _ _ _ _ (loaded_heap_list es _)).
  destruct (add_job_heap es
              {| Entry.inputs := Some (Args.inputs args);
                 Entry.outputs := Some (Args.outputs args);
                 Entry.command := Some (Args.command args);
                 Entry.description := None |}) as (_ & _ & Hentry & _).
  unfold job_record.
  destruct (Args.description args) as [[|c d]|]; cbn [truthy default].
  - rewrite (bind_return _ _ _ tt _ eq_refl). by rewrite json_dump_eval.
  - step (setitem_description_eval f [] _ _ _ _ Hentry).
    rewrite list_insert_insert_ne by lia.
    rewrite (insert_app_r_alt (loaded_heap es)) by (rewrite loaded_heap_length; lia).
    rewrite loaded_heap_length, Nat.sub_diag. cbn [insert list_insert].
    by rewrite json_dump_eval.
  - rewrite (bind_return _ _ _ tt _ eq_refl). by rewrite json_dump_eval.
Qed.

(** ** [run_build] compiles the registry *)

Lemma for_entries_cons (f : FS) (out : list Entry.t) (h : list object)
    (a : addr) (e : Entry.t) (refs : list addr)
    (rules : list Rule.t) (builds : list Build.t) :
  h !! a = Some (DictEntry e) →
  for_entries (a :: refs) rules builds (Process f out h) =
  match compile_entry e with
  | Some (r, b) => for_entries refs (rules ++ [r]) (builds ++ [b]) (Process f out h)
  | None => (inl (SystemExit 1), Process f (out ++ [e]) h)
  end.
Proof.
  intros E. cbn [for_entries check_required required_keys].
  unfold dict_contains, getitem, print, as_entry, deref, exit, write_stdout,
    raise, get_heap, mbind, Py_bind, mret, Py_ret.
  destruct e as [[i|] [o|] [c|] [d|]];
    repeat (cbn [heap]; rewrite E; cbn -[to_rule_name String.append]); reflexivity.
Qed.

Lemma for_entries_eval (f : FS) (out : list Entry.t) (h : list object)
    (refs : list addr) (es : list Entry.t)
    (rules : list Rule.t) (builds : list Build.t) :
  Forall2 (λ a e, h !! a = Some (DictEntry e)) refs es →
  for_entries refs rules builds (Process f out h) =
  match compile es rules builds with
  | inr rb => (inr rb, Process f out h)
  | inl e => (inl (SystemExit 1), Process f (out ++ [e]) h)
  end.
Proof.
  intros H. revert rules builds.
  induction H as [|a e refs es E _ IH]; intros rules builds; [reflexivity|].
  rewrite (for_entries_cons _ _ _ _ _ _ _ _ E). cbn [compile].
  destruct (compile_entry e) as [[r b]|]; [apply IH|reflexivity].
Qed.

Lemma run_build_eval {A} (x : A) (f : FS) :
  run (run_build x) f =
  match litani_cache f with
  | None =>
      {| outcome := inl (Exception (FileNotFoundError cache_path));
         printed := [];
         files := f |}
  | Some text =>
      match compile (jobs text) [] [] with
      | inl e => {| outcome := inl (SystemExit 1); printed := [e]; files := f |}
      | inr (rules, builds) =>
          {| outcome := inr tt;
             printed := [];
             files := {| litani_cache := litani_cache f;
                         litani_ninja :=
                           Some {| width := 70;
                                   stmts := map NinjaRule rules ++
                                            map NinjaBuild builds |} |} |}
      end
  end.
Proof.
  unfold run, run_build.
  destruct (litani_cache f) as [text|] eqn:E.
  - rewrite (bind_return _ _ _ text (Process f [] []))
      by (by rewrite open_cache_eval, E).
    step (json_load_eval f [] text).
    pose proof (loaded_heap_cache (jobs text) []) as Hcache.
    pose proof (loaded_heap_list (jobs text) []) as Hlist.
    pose proof (loaded_heap_entries (jobs text) []) as Hentries.
    rewrite app_nil_r in Hcache, Hlist, Hentries.
    step (getitem_jobs_eval f [] _ _ _ Hcache).
    step (list_items_eval f [] _ _ _ Hlist).
    pose proof (for_entries_eval f [] _ _ _ [] [] Hentries) as Hloop.
    destruct (compile (jobs text) [] []) as [e|[rules builds]].
    + by stop Hloop.
    + step Hloop.
      unfold write_ninja, mbind, Py_bind, get_fs, put_fs. cbn. by rewrite E.
  - rewrite (bind_signal _ _ _ (Exception (FileNotFoundError cache_path))
               (Process f [] [])); [reflexivity|].
    by rewrite open_cache_eval, E.
Qed.

(** ** The compiled rules and builds *)

Lemma compile_entry_valid (e : Entry.t) :
  Entry.valid e ↔ is_Some (compile_entry e).
Proof.
  unfold Entry.valid, compile_entry.
  destruct (Entry.inputs e), (Entry.outputs e), (Entry.command e);
    split; try (intros (H1 & H2 & H3)); try intros H;
    repeat split; eauto;
    try (by apply is_Some_None in H1); try (by apply is_Some_None in H2);
    try (by apply is_Some_None in H3); by apply is_Some_None in H.
Qed.

Lemma compile_entry_fields (e : Entry.t) (r : Rule.t) (b : Build.t) :
  compile_entry e = Some (r, b) →
  Some (Rule.command r) = Entry.command e
  ∧ Some (Rule.name r) = to_rule_name <$> Entry.command e
  ∧ Rule.description r =
      default ("Running '" +:+ Rule.command r +:+ "...'") (Entry.description e)
  ∧ Some (Build.inputs b) = Entry.inputs e
  ∧ Some (Build.outputs b) = Entry.outputs e
  ∧ Build.rule b = Rule.name r.
Proof.
  unfold compile_entry.
  destruct (Entry.inputs e), (Entry.outputs e), (Entry.command e); try discriminate.
  intros [= <- <-]. by repeat split.
Qed.

Lemma compile_all (es : list Entry.t) (rbs : list (Rule.t * Build.t))
    (rules : list Rule.t) (builds : list Build.t) :
  Forall2 (λ e rb, compile_entry e = Some rb) es rbs →
  compile es rules builds = inr (rules ++ rbs.*1, builds ++ rbs.*2).
Proof.
  intros H. revert rules builds.
  induction H as [|e [r b] es rbs E _ IH]; intros rules builds.
  - cbn. by rewrite !app_nil_r.
  - cbn [compile]. rewrite E, IH. cbn. by rewrite <- !app_assoc.
Qed.

Lemma compile_entries_valid (es : list Entry.t) :
  Forall Entry.valid es →
  ∃ rbs, Forall2 (λ e rb, compile_entry e = Some rb) es rbs.
Proof.
  induction 1 as [|e es He _ [rbs IH]]; [by exists []|].
  apply compile_entry_valid in He as [rb He].
  exists (rb :: rbs). by constructor.
Qed.

Lemma compile_first_invalid (before : list Entry.t) (e : Entry.t)
    (after : list Entry.t) (rules : list Rule.t) (builds : list Build.t) :
  Forall Entry.valid before → ¬ Entry.valid e →
  compile (before ++ e :: after) rules builds = inl e.
Proof.
  intros Hbefore He. revert rules builds.
  induction Hbefore as [|e' before He' _ IH]; intros rules builds; cbn [app compile].
  - destruct (compile_entry e) as [rb|] eqn:E; [|reflexivity].
    destruct He. apply compile_entry_valid. by rewrite E.
  - apply compile_entry_valid in He' as [[r b] ->]. apply IH.
Qed.

Lemma first_invalid (es : list Entry.t) :
  Exists (λ e, ¬ Entry.valid e) es →
  ∃ before e after,
    es = before ++ e :: after ∧ Forall Entry.valid before ∧ ¬ Entry.valid e.
Proof.
  induction es as [|e es IH]; intros H; [by apply Exists_nil in H|].
  destruct (decide (Entry.valid e)) as [He|He].
  - apply Exists_cons in H as [H|H]; [done|].
    destruct (IH H) as (before & e' & after & -> & Hbefore & He').
    exists (e :: before), e', after. repeat split; [by constructor|done].
  - exists [], e, es. by repeat split.
Qed.

(** [run-build] on a registry of valid records. *)
Lemma run_build_valid (f : FS) (text : JsonFile) :
  litani_cache f = Some text →
  Forall Entry.valid (jobs text) →
  ∃ rbs,
    Forall2 (λ e rb, compile_entry e = Some rb) (jobs text) rbs
    ∧ run (main RunBuild) f =
      {| outcome := inr tt;
         printed := [];
         files := {| litani_cache := Some text;
                     litani_ninja :=
                       Some {| width := 70;
                               stmts := map NinjaRule rbs.*1 ++
                                        map NinjaBuild rbs.*2 |} |} |}.
Proof.
  intros E Hvalid. destruct (compile_entries_valid _ Hvalid) as [rbs Hrbs].
  exists rbs. split; [done|].
  cbn [main]. rewrite run_build_eval, E, (compile_all _ _ _ _ Hrbs). reflexivity.
Qed.

Lemma compiled_lookup (es : list Entry.t) (rbs : list (Rule.t * Build.t))
    (i : nat) (e : Entry.t) :
  Forall2 (λ e rb, compile_entry e = Some rb) es rbs →
  es !! i = Some e →
  ∃ r b, rbs.*1 !! i = Some r ∧ rbs.*2 !! i = Some b ∧ compile_entry e = Some (r, b).
Proof.
  intros H He. destruct (Forall2_lookup_l _ _ _ _ _ H He) as ([r b] & Hrb & E).
  exists r, b. rewrite !list_lookup_fmap, Hrb. by repeat split.
Qed.

Lemma run_all_add_job (calls : list Args.t) (f : FS) :
  registry (run_all (main ∘ AddJob <$> calls) f) =
  registry f ++ (job_record <$> calls).
Proof.
  unfold run_all. revert f. induction calls as [|a calls IH]; intros f.
  - cbn. by rewrite app_nil_r.
  - cbn [fmap list_fmap foldl compose main]. rewrite IH, add_job_eval.
    cbn. by rewrite <- app_assoc.
Qed.

(** [add-job] persists valid records only, so that a registry built by
    [add-job] alone is a registry of valid records. *)
Lemma job_record_valid (args : Args.t) : Entry.valid (job_record args).
Proof. repeat split; cbn; eauto. Qed.

Lemma add_job_preserves_valid (args : Args.t) (f : FS) :
  Forall Entry.valid (registry f) →
  Forall Entry.valid (registry (files (run (main (AddJob args)) f))).
Proof.
  intros H. cbn [main]. rewrite add_job_eval. unfold registry at 1. cbn.
  apply Forall_app. split; [exact H|].
  constructor; [apply job_record_valid|constructor].
Qed.

Lemma run_all_add_job_valid (calls : list Args.t) :
  Forall Entry.valid (registry (run_all (main ∘ AddJob <$> calls) no_files)).
Proof.
  rewrite run_all_add_job. cbn [registry no_files litani_cache app].
  induction calls as [|a calls IH]; constructor; [apply job_record_valid|exact IH].
Qed.

(** ** Properties of the subcommands *)

(** C1. In a registry whose job records all have [inputs], [outputs] and
    [command], [run-build] returns and writes one rule and one build per job
    record, in registry order: the rule at the position of job [j] has [j]'s
    command and the name [to_rule_name] of it, the build there has [j]'s
    inputs and outputs as they are and refers to the same rule name. *)
Theorem run_build_round_trip (f : FS) (text : JsonFile) :
  litani_cache f = Some text →
  Forall Entry.valid (jobs text) →
  ∃ rules builds,
    run (main RunBuild) f =
      {| outcome := inr tt;
         printed := [];
         files := {| litani_cache := Some text;
                     litani_ninja :=
                       Some {| width := 70;
                               stmts := map NinjaRule rules ++
                                        map NinjaBuild builds |} |} |}
    ∧ length rules = length (jobs text)
    ∧ length builds = length (jobs text)
    ∧ ∀ i j, jobs text !! i = Some j →
        ∃ r b,
          rules !! i = Some r ∧ builds !! i = Some b
          ∧ Some (Rule.command r) = Entry.command j
          ∧ Some (Rule.name r) = to_rule_name <$> Entry.command j
          ∧ Some (Build.inputs b) = Entry.inputs j
          ∧ Some (Build.outputs b) = Entry.outputs j
          ∧ Some (Build.rule b) = to_rule_name <$> Entry.command j.
Proof.
  intros E Hvalid.
  destruct (run_build_valid f text E Hvalid) as (rbs & Hrbs & Hrun).
  exists rbs.*1, rbs.*2. split; [exact Hrun|].
  rewrite !length_fmap, <- (Forall2_length _ _ _ Hrbs). repeat split.
  intros i j Hj.
  destruct (compiled_lookup _ _ _ _ Hrbs Hj) as (r & b & Hr & Hb & Hc).
  apply compile_entry_fields in Hc as (Hcmd & Hname & _ & Hin & Hout & Hrule).
  exists r, b. repeat split; try done. by rewrite Hrule.
Qed.

Lemma run_build_round_trip_witness :
  let es := [job ["a.c"] "gcc -c a.c -o a.o" ["a.o"];
             job ["a.o"; "b.o"] "ld a.o b.o" ["a.out"]] in
  Forall Entry.valid es
  ∧ ∃ rules builds,
      run (main RunBuild) (cache_with es) =
        {| outcome := inr tt;
           printed := [];
           files := {| litani_cache := litani_cache (cache_with es);
                       litani_ninja :=
                         Some {| width := 70;
                                 stmts := map NinjaRule rules ++
                                          map NinjaBuild builds |} |} |}
      ∧ length rules = 2
      ∧ length builds = 2
      ∧ ∀ i j, es !! i = Some j →
          ∃ r b,
            rules !! i = Some r ∧ builds !! i = Some b
            ∧ Some (Rule.command r) = Entry.command j
            ∧ Some (Rule.name r) = to_rule_name <$> Entry.command j
            ∧ Some (Build.inputs b) = Entry.inputs j
            ∧ Some (Build.outputs b) = Entry.outputs j
            ∧ Some (Build.rule b) = to_rule_name <$> Entry.command j.
Proof.
  intros es.
  assert (Hvalid : Forall Entry.valid es).
  { repeat constructor; cbn; eauto. }
  split; [exact Hvalid|].
  exact (run_build_round_trip (cache_with es) _ eq_refl Hvalid).
Defined.

(** C2. In a registry with a job record that lacks [inputs], [outputs] or
    [command], [run-build] prints the first such record and exits with
    status 1; the files are as they were, so no output file is written,
    whatever the other records are. *)
Theorem run_build_missing_field (f : FS) (text : JsonFile) :
  litani_cache f = Some text →
  Exists (λ e, ¬ Entry.valid e) (jobs text) →
  ∃ before e after,
    jobs text = before ++ e :: after
    ∧ Forall Entry.valid before
    ∧ ¬ Entry.valid e
    ∧ run (main RunBuild) f =
        {| outcome := inl (SystemExit 1); printed := [e]; files := f |}
    ∧ exit_status (run (main RunBuild) f) = 1%Z.
Proof.
  intros E Hex.
  destruct (first_invalid _ Hex) as (before & e & after & Hes & Hbefore & He).
  exists before, e, after.
  assert (Hrun : run (main RunBuild) f =
                 {| outcome := inl (SystemExit 1); printed := [e]; files := f |}).
  { cbn [main]. rewrite run_build_eval, E, Hes.
    by rewrite (compile_first_invalid _ _ _ _ _ Hbefore He). }
  repeat split; try done. unfold exit_status. by rewrite Hrun.
Qed.

Lemma run_build_missing_field_witness :
  let good := job ["a.c"] "gcc -c a.c -o a.o" ["a.o"] in
  let bad := {| Entry.inputs := Some ["a.o"]; Entry.outputs := None;
                Entry.command := Some "strip a.o"; Entry.description := None |} in
  ∃ before e after,
    [good; bad; good] = before ++ e :: after
    ∧ Forall Entry.valid before
    ∧ ¬ Entry.valid e
    ∧ run (main RunBuild) (cache_with [good; bad; good]) =
        {| outcome := inl (SystemExit 1); printed := [e];
           files := cache_with [good; bad; good] |}
    ∧ exit_status (run (main RunBuild) (cache_with [good; bad; good])) = 1%Z.
Proof.
  intros good bad.
  apply (run_build_missing_field (cache_with [good; bad; good]) _ eq_refl).
  apply Exists_cons_tl, Exists_cons_hd.
  intros (_ & H & _). by apply is_Some_None in H.
Defined.

(** C4. Whatever the registry holds, [add-job] returns and leaves the cache
    file holding the records it held before (none if the file did not exist),
    unchanged and in their order, followed by the job of the invocation,
    written with an indentation of 2; the other file is untouched.  Hence
    after any number of [add-job] invocations in sequence the registry is the
    prior registry followed by the jobs of the invocations, in call order. *)
Theorem add_job_appends (f : FS) (args : Args.t) (calls : list Args.t) :
  run (main (AddJob args)) f =
    {| outcome := inr tt;
       printed := [];
       files := {| litani_cache :=
                     Some {| indent := Some 2;
                             jobs := registry f ++ [job_record args] |};
                   litani_ninja := litani_ninja f |} |}
  ∧ registry (run_all (main ∘ AddJob <$> calls) f) =
      registry f ++ (job_record <$> calls)
  ∧ registry (run_all (main ∘ AddJob <$> calls) no_files) = job_record <$> calls.
Proof.
  split; [apply add_job_eval|]. split; apply run_all_add_job.
Qed.

(** C5. When the cache file does not exist, [run-build] does not load an
    empty registry: [open] raises [FileNotFoundError], nothing is written and
    the status is 1.  [add-job] on the same files does recover, with an empty
    registry to which it appends. *)
Theorem run_build_missing_registry (ninja : option NinjaFile) (args : Args.t) :
  let f := {| litani_cache := None; litani_ninja := ninja |} in
  run (main RunBuild) f =
    {| outcome := inl (Exception (FileNotFoundError cache_path));
       printed := [];
       files := f |}
  ∧ exit_status (run (main RunBuild) f) = 1%Z
  ∧ outcome (run (main (AddJob args)) f) = inr tt
  ∧ registry (files (run (main (AddJob args)) f)) = [job_record args].
Proof.
  intros f. cbn [main]. rewrite run_build_eval, add_job_eval. by repeat split.
Qed.

(** C6. Rule names are not deduplicated: in a registry of valid records, two
    job records at different positions whose commands have the same
    [to_rule_name] give two rules, one at the position of each record and
    with its command, that bear this same name; the rules are as many as the
    records. *)
Theorem run_build_keeps_name_collisions (f : FS) (text : JsonFile)
    (i j : nat) (ei ej : Entry.t) (ci cj : string) :
  litani_cache f = Some text →
  Forall Entry.valid (jobs text) →
  i ≠ j →
  jobs text !! i = Some ei → Entry.command ei = Some ci →
  jobs text !! j = Some ej → Entry.command ej = Some cj →
  to_rule_name ci = to_rule_name cj →
  ∃ rules builds ri rj,
    litani_ninja (files (run (main RunBuild) f)) =
      Some {| width := 70;
              stmts := map NinjaRule rules ++ map NinjaBuild builds |}
    ∧ length rules = length (jobs text)
    ∧ rules !! i = Some ri ∧ rules !! j = Some rj
    ∧ Rule.command ri = ci ∧ Rule.command rj = cj
    ∧ Rule.name ri = to_rule_name ci ∧ Rule.name rj = to_rule_name ci.
Proof.
  intros E Hvalid _ Hi Hci Hj Hcj Hname.
  destruct (run_build_valid f text E Hvalid) as (rbs & Hrbs & Hrun).
  destruct (compiled_lookup _ _ _ _ Hrbs Hi) as (ri & bi & Hri & _ & Hi').
  destruct (compiled_lookup _ _ _ _ Hrbs Hj) as (rj & bj & Hrj & _ & Hj').
  apply compile_entry_fields in Hi' as (Hcmdi & Hnamei & _).
  apply compile_entry_fields in Hj' as (Hcmdj & Hnamej & _).
  rewrite Hci in Hcmdi, Hnamei. rewrite Hcj in Hcmdj, Hnamej.
  cbn in Hnamei, Hnamej. rewrite <- Hname in Hnamej.
  exists rbs.*1, rbs.*2, ri, rj. rewrite Hrun. cbn [files litani_ninja].
  rewrite length_fmap, <- (Forall2_length _ _ _ Hrbs).
  repeat split; congruence.
Qed.

Lemma run_build_keeps_name_collisions_witness :
  let es := [job ["a"] "run!" ["b"]; job ["c"] "run@" ["d"]] in
  to_rule_name "run!" = "run" ∧ to_rule_name "run@" = "run"
  ∧ ∃ rules builds ri rj,
      litani_ninja (files (run (main RunBuild) (cache_with es))) =
        Some {| width := 70;
                stmts := map NinjaRule rules ++ map NinjaBuild builds |}
      ∧ length rules = 2
      ∧ rules !! 0 = Some ri ∧ rules !! 1 = Some rj
      ∧ Rule.command ri = "run!" ∧ Rule.command rj = "run@"
      ∧ Rule.name ri = to_rule_name "run!" ∧ Rule.name rj = to_rule_name "run!".
Proof.
  intros es. split; [reflexivity|]. split; [reflexivity|].
  apply (run_build_keeps_name_collisions (cache_with es)
           {| indent := Some 2; jobs := es |} 0 1
           (job ["a"] "run!" ["b"]) (job ["c"] "run@" ["d"]) "run!" "run@");
    try reflexivity; [|lia].
  repeat constructor; cbn; eauto.
Defined.

(** C7, as the specification has it, does not hold: after the [add-job] of
    scenario 1, [run-build] writes no rule named [gcccaocaoaoo] and no rule
    described as [Running 'gcc -c a.c -o a.o'...]. *)
Lemma scenario_1_literals_differ :
  let f := files (run (main (AddJob (scenario_1 "p" "build"))) no_files) in
  let written :=
    match litani_ninja (files (run (main RunBuild) f)) with
    | Some ninja => stmts ninja
    | None => []
    end in
  (¬ ∃ r, NinjaRule r ∈ written ∧ Rule.name r = "gcccaocaoaoo")
  ∧ (¬ ∃ r, NinjaRule r ∈ written
            ∧ Rule.description r = "Running 'gcc -c a.c -o a.o'...").
Proof.
  cbv zeta. split; intros (r & Hin & Hr); vm_compute in Hin;
    apply list_elem_of_In in Hin; destruct Hin as [Hin|[Hin|[]]];
    try discriminate Hin; injection Hin as <-; discriminate Hr.
Qed.

(** C7, amended. For the job with inputs [a.c], outputs [a.o], command
    [gcc -c a.c -o a.o] and no description, added when no cache exists, the
    cache file holds exactly that one record, and [run-build] writes the rule
    named [gcccacoao], described as [Running 'gcc -c a.c -o a.o...'], and the
    build of [a.o] from [a.c] by that rule. *)
Theorem scenario_1_compiles (pipeline_name ci_stage : string) :
  let f := files (run (main (AddJob (scenario_1 pipeline_name ci_stage))) no_files) in
  litani_cache f =
    Some {| indent := Some 2;
            jobs := [{| Entry.inputs := Some ["a.c"];
                        Entry.outputs := Some ["a.o"];
                        Entry.command := Some "gcc -c a.c -o a.o";
                        Entry.description := None |}] |}
  ∧ litani_ninja (files (run (main RunBuild) f)) =
    Some {| width := 70;
            stmts := [NinjaRule {| Rule.name := "gcccacoao";
                                   Rule.description := "Running 'gcc -c a.c -o a.o...'";
                                   Rule.command := "gcc -c a.c -o a.o" |};
                      NinjaBuild {| Build.inputs := ["a.c"];
                                    Build.outputs := ["a.o"];
                                    Build.rule := "gcccacoao" |}] |}.
Proof. split; reflexivity. Qed.

(** C8, as the specification has it, does not hold: a registry whose one job
    has the command [!!!], of which no character is kept, compiles; the
    status is 0 and a rule with the empty name is written. *)
Lemma empty_rule_name_is_written :
  let f := cache_with [job ["in"] "!!!" ["out"]] in
  to_rule_name "!!!" = EmptyString
  ∧ exit_status (run (main RunBuild) f) = 0%Z
  ∧ litani_ninja (files (run (main RunBuild) f)) =
    Some {| width := 70;
            stmts := [NinjaRule {| Rule.name := EmptyString;
                                   Rule.description := "Running '!!!...'";
                                   Rule.command := "!!!" |};
                      NinjaBuild {| Build.inputs := ["in"];
                                    Build.outputs := ["out"];
                                    Build.rule := EmptyString |}] |}.
Proof. repeat split. Qed.

(** C8, amended. In a registry of valid records, a job record whose command
    sanitizes to the empty string is compiled like any other: [run-build]
    returns with status 0 and writes, at the position of the record, a rule
    with the empty name and a build that refers to it. *)
Theorem empty_rule_name_compiles (f : FS) (text : JsonFile)
    (i : nat) (e : Entry.t) (c : string) :
  litani_cache f = Some text →
  Forall Entry.valid (jobs text) →
  jobs text !! i = Some e →
  Entry.command e = Some c →
  to_rule_name c = EmptyString →
  exit_status (run (main RunBuild) f) = 0%Z
  ∧ ∃ rules builds r b,
      litani_ninja (files (run (main RunBuild) f)) =
        Some {| width := 70;
                stmts := map NinjaRule rules ++ map NinjaBuild builds |}
      ∧ rules !! i = Some r ∧ builds !! i = Some b
      ∧ Rule.name r = EmptyString ∧ Rule.command r = c ∧ Build.rule b = EmptyString.
Proof.
  intros E Hvalid Hi Hc Hname.
  destruct (run_build_valid f text E Hvalid) as (rbs & Hrbs & Hrun).
  destruct (compiled_lookup _ _ _ _ Hrbs Hi) as (r & b & Hr & Hb & He).
  apply compile_entry_fields in He as (Hcmd & Hrn & _ & _ & _ & Hrule).
  rewrite Hc in Hcmd, Hrn. cbn in Hrn. rewrite Hname in Hrn.
  unfold exit_status. rewrite Hrun. split; [reflexivity|].
  exists rbs.*1, rbs.*2, r, b. cbn [files litani_ninja].
  repeat split; congruence.
Qed.

Lemma empty_rule_name_compiles_witness :
  let f := cache_with [job ["a"] "ok" ["b"]; job ["in"] "-- > /" ["out"]] in
  exit_status (run (main RunBuild) f) = 0%Z
  ∧ ∃ rules builds r b,
      litani_ninja (files (run (main RunBuild) f)) =
        Some {| width := 70;
                stmts := map NinjaRule rules ++ map NinjaBuild builds |}
      ∧ rules !! 1 = Some r ∧ builds !! 1 = Some b
      ∧ Rule.name r = EmptyString ∧ Rule.command r = "-- > /" ∧ Build.rule b = EmptyString.
Proof.
  intros f.
  apply (empty_rule_name_compiles f
           {| indent := Some 2;
              jobs := [job ["a"] "ok" ["b"]; job ["in"] "-- > /" ["out"]] |}
           1 (job ["in"] "-- > /" ["out"]) "-- > /"); try reflexivity.
  repeat constructor; cbn; eauto.
Defined.

(** C9. [add_job] does not carry the job-control attributes into the
    persisted job record, although [get_add_job_args] requires two of them and
    documents the others by their effect on the job, and although the sibling
    attribute [description] is carried: two [add-job] invocations that differ
    in pipeline name, CI stage, timeout, timeout-ok flag and accepted return
    codes leave the same cache file, whose one record holds the inputs, the
    outputs and the command only. *)
Lemma attributes_are_not_persisted :
  let a1 := with_attributes "nightly" "build" (Some 10%Z) true (Some ["1"; "2"])
              false false (scenario_1 EmptyString EmptyString) in
  let a2 := with_attributes "release" "test" None false None
              false false (scenario_1 EmptyString EmptyString) in
  parsed a1 ∧ parsed a2
  ∧ Args.pipeline_name a1 ≠ Args.pipeline_name a2
  ∧ Args.ci_stage a1 ≠ Args.ci_stage a2
  ∧ Args.timeout a1 ≠ Args.timeout a2
  ∧ Args.timeout_ok a1 ≠ Args.timeout_ok a2
  ∧ Args.ok_returns a1 ≠ Args.ok_returns a2
  ∧ run (main (AddJob a1)) no_files = run (main (AddJob a2)) no_files
  ∧ registry (files (run (main (AddJob a1)) no_files)) =
      [{| Entry.inputs := Some ["a.c"];
          Entry.outputs := Some ["a.o"];
          Entry.command := Some "gcc -c a.c -o a.o";
          Entry.description := None |}].
Proof.
  cbv zeta. repeat split; try discriminate; cbn; by repeat constructor.
Qed.

(** The same for every invocation and all files: [add_job] reads the inputs,
    the outputs, the command and the description of its arguments and no
    other attribute, so that the pipeline name, CI stage, timeout, timeout-ok
    flag, accepted return codes and verbosity flags given do not reach the
    cache file. *)
Theorem add_job_ignores_attributes (f : FS) (args : Args.t)
    (pipeline_name ci_stage : string) (timeout : option Z) (timeout_ok : bool)
    (ok_returns : option (list string)) (verbose very_verbose : bool) :
  run (main (AddJob (with_attributes pipeline_name ci_stage timeout timeout_ok
                       ok_returns verbose very_verbose args))) f =
  run (main (AddJob args)) f
  ∧ registry (files (run (main (AddJob args)) f)) =
    registry f ++
      [{| Entry.inputs := Some (Args.inputs args);
          Entry.outputs := Some (Args.outputs args);
          Entry.command := Some (Args.command args);
          Entry.description :=
            match Args.description args with
            | Some EmptyString | None => None
            | Some d => Some d
            end |}].
Proof.
  cbn [main]. rewrite !add_job_eval. split; [reflexivity|].
  unfold job_record, registry. cbn.
  by destruct (Args.description args) as [[|c d]|].
Qed.

(** C10. An [add-job] whose description is the empty string leaves the files
    an [add-job] without description leaves: the record persisted has no
    [description] key.  In a registry of valid records, the following
    [run-build] gives the rule of that record the description
    [Running '<command>...']. *)
Theorem empty_description_is_not_stored (f : FS) (args : Args.t) :
  Args.description args = Some EmptyString →
  Forall Entry.valid (registry f) →
  let f' := files (run (main (AddJob args)) f) in
  run (main (AddJob args)) f = run (main (AddJob (with_description None args))) f
  ∧ (∃ e, registry f' = registry f ++ [e]
          ∧ Entry.description e = None
          ∧ Entry.contains e "description" = false)
  ∧ ∃ rules builds r,
      litani_ninja (files (run (main RunBuild) f')) =
        Some {| width := 70;
                stmts := map NinjaRule rules ++ map NinjaBuild builds |}
      ∧ length rules = S (length (registry f))
      ∧ rules !! length (registry f) = Some r
      ∧ Rule.command r = Args.command args
      ∧ Rule.description r = "Running '" +:+ Args.command args +:+ "...'".
Proof.
  intros Hd Hvalid f'. subst f'. cbn [main]. rewrite !add_job_eval.
  unfold job_record. cbn [with_description Args.inputs Args.outputs Args.command
                            Args.description truthy].
  rewrite Hd. cbn [truthy files].
  split; [reflexivity|]. split.
  { eexists. by repeat split. }
  set (e := {| Entry.inputs := Some (Args.inputs args);
               Entry.outputs := Some (Args.outputs args);
               Entry.command := Some (Args.command args);
               Entry.description := None |}).
  set (f' := {| litani_cache := Some {| indent := Some 2; jobs := registry f ++ [e] |};
                litani_ninja := litani_ninja f |}).
  assert (Hvalid' : Forall Entry.valid (registry f ++ [e])).
  { apply Forall_app. split; [done|]. repeat constructor; cbn; eauto. }
  destruct (run_build_valid f' _ eq_refl Hvalid') as (rbs & Hrbs & Hrun).
  assert (He : (registry f ++ [e]) !! length (registry f) = Some e)
    by apply list_lookup_middle, eq_refl.
  destruct (compiled_lookup _ _ _ _ Hrbs He) as (r & b & Hr & _ & Hc).
  apply compile_entry_fields in Hc as (Hcmd & _ & Hdesc & _).
  cbn in Hcmd, Hdesc. injection Hcmd as Hcmd.
  exists rbs.*1, rbs.*2, r. change (run_build RunBuild) with (main RunBuild).
  rewrite Hrun. cbn [files litani_ninja].
  rewrite length_fmap, <- (Forall2_length _ _ _ Hrbs). cbn [jobs].
  rewrite length_app. cbn [length].
  repeat split; try done; [lia|congruence].
Qed.

Lemma empty_description_is_not_stored_witness :
  let args := with_description (Some EmptyString) (scenario_1 "p" "build") in
  let f := cache_with [job ["x"] "touch x" ["y"]] in
  let f' := files (run (main (AddJob args)) f) in
  run (main (AddJob args)) f = run (main (AddJob (with_description None args))) f
  ∧ (∃ e, registry f' = registry f ++ [e]
          ∧ Entry.description e = None
          ∧ Entry.contains e "description" = false)
  ∧ ∃ rules builds r,
      litani_ninja (files (run (main RunBuild) f')) =
        Some {| width := 70;
                stmts := map NinjaRule rules ++ map NinjaBuild builds |}
      ∧ length rules = 2
      ∧ rules !! 1 = Some r
      ∧ Rule.command r = "gcc -c a.c -o a.o"
      ∧ Rule.description r = "Running 'gcc -c a.c -o a.o...'".
Proof.
  intros args f.
  apply (empty_description_is_not_stored f args); [reflexivity|].
  repeat constructor; cbn; eauto.
Defined.

(** * Further properties *)

(** ** The sanitizer *)

Lemma to_rule_name_length (s : string) :
  String.length (to_rule_name s) ≤ String.length s.
Proof.
  induction s as [|c s IH]; [reflexivity|].
  rewrite to_rule_name_cons. destruct (class_match allowed c); cbn; lia.
Qed.

Lemma to_rule_name_app (s1 s2 : string) :
  to_rule_name (s1 +:+ s2) = to_rule_name s1 +:+ to_rule_name s2.
Proof.
  induction s1 as [|c s1 IH]; [reflexivity|].
  change (String c s1 +:+ s2) with (String c (s1 +:+ s2)).
  rewrite !to_rule_name_cons, IH.
  by destruct (class_match allowed c).
Qed.

Lemma to_rule_name_fixed (s : string) :
  match_star_anchored allowed s = true → to_rule_name s = s.
Proof.
  induction s as [|c s IH]; [reflexivity|].
  cbn [match_star_anchored]. intros [Hc Hs]%andb_prop.
  by rewrite to_rule_name_cons, Hc, IH.
Qed.

Lemma to_rule_name_allowed (s : string) :
  match_star_anchored allowed (to_rule_name s) = true.
Proof.
  induction s as [|c s IH]; [reflexivity|].
  rewrite to_rule_name_cons. destruct (class_match allowed c) eqn:E; [|exact IH].
  cbn [match_star_anchored]. by rewrite E, IH.
Qed.

(** X1. Sanitizing twice is sanitizing once: a rule name is its own rule
    name. *)
Theorem to_rule_name_idempotent (s : string) :
  to_rule_name (to_rule_name s) = to_rule_name s.
Proof. apply to_rule_name_fixed, to_rule_name_allowed. Qed.

(** X2. The rule name of a concatenation is the concatenation of the rule
    names: each part of a command is sanitized on its own, whatever is
    around it. *)
Theorem to_rule_name_concat (s1 s2 : string) :
  to_rule_name (s1 +:+ s2) = to_rule_name s1 +:+ to_rule_name s2.
Proof. apply to_rule_name_app. Qed.

(** X3. A rule name is never longer than the command, and it is the command
    itself exactly when every character of the command is a letter, a digit
    or an underscore; otherwise it is strictly shorter. *)
Theorem to_rule_name_shortens (s : string) :
  String.length (to_rule_name s) ≤ String.length s
  ∧ (to_rule_name s = s ↔ match_star_anchored allowed s = true)
  ∧ (String.length (to_rule_name s) = String.length s ↔ to_rule_name s = s).
Proof.
  split; [apply to_rule_name_length|].
  assert (Hlen : String.length (to_rule_name s) = String.length s →
                 to_rule_name s = s).
  { induction s as [|c s IH]; [reflexivity|].
    rewrite to_rule_name_cons. destruct (class_match allowed c).
    - cbn [String.length]. intros [= H]. by rewrite IH.
    - pose proof (to_rule_name_length s). cbn [String.length]. lia. }
  split; split.
  - intros <-. apply to_rule_name_allowed.
  - apply to_rule_name_fixed.
  - exact Hlen.
  - by intros ->.
Qed.

(** X4. The rule name is empty exactly when no character of the command is
    a letter, a digit or an underscore; the empty command is one such. *)
Theorem to_rule_name_empty (s : string) :
  to_rule_name s = EmptyString ↔
  Forall (λ c, class_match allowed c = false) (list_ascii_of_string s).
Proof.
  induction s as [|c s IH]; [by split; [constructor|]|].
  rewrite to_rule_name_cons. cbn [list_ascii_of_string].
  rewrite Forall_cons. destruct (class_match allowed c).
  - split; [discriminate|]. by intros [? _].
  - rewrite IH. split; [by split|by intros [_ ?]].
Qed.

(** ** [run_build] *)

(** A registry compiles or has a first record with a missing key. *)
Lemma compile_cases (es : list Entry.t) (rules : list Rule.t) (builds : list Build.t) :
  (Forall Entry.valid es
   ∧ ∃ rbs, Forall2 (λ e rb, compile_entry e = Some rb) es rbs
            ∧ compile es rules builds = inr (rules ++ rbs.*1, builds ++ rbs.*2))
  ∨ (∃ before e after,
       es = before ++ e :: after ∧ Forall Entry.valid before ∧ ¬ Entry.valid e
       ∧ compile es rules builds = inl e).
Proof.
  destruct (decide (Forall Entry.valid es)) as [Hvalid|Hinvalid].
  - left. split; [done|].
    destruct (compile_entries_valid _ Hvalid) as [rbs Hrbs].
    exists rbs. split; [done|]. by apply compile_all.
  - right. apply not_Forall_Exists in Hinvalid; [|apply _].
    destruct (first_invalid es) as (before & e & after & -> & Hbefore & He).
    { eapply Exists_impl; [exact Hinvalid|]. by intros e. }
    exists before, e, after. repeat split; try done.
    by apply compile_first_invalid.
Qed.

(** The three outcomes of [run-build]. *)
Lemma run_build_cases (f : FS) :
  (litani_cache f = None
   ∧ run (main RunBuild) f =
     {| outcome := inl (Exception (FileNotFoundError cache_path));
        printed := []; files := f |})
  ∨ (∃ text before e after,
       litani_cache f = Some text
       ∧ jobs text = before ++ e :: after
       ∧ Forall Entry.valid before ∧ ¬ Entry.valid e
       ∧ run (main RunBuild) f =
         {| outcome := inl (SystemExit 1); printed := [e]; files := f |})
  ∨ (∃ text rbs,
       litani_cache f = Some text
       ∧ Forall Entry.valid (jobs text)
       ∧ Forall2 (λ e rb, compile_entry e = Some rb) (jobs text) rbs
       ∧ run (main RunBuild) f =
         {| outcome := inr tt;
            printed := [];
            files := {| litani_cache := litani_cache f;
                        litani_ninja :=
                          Some {| width := 70;
                                  stmts := map NinjaRule rbs.*1 ++
                                           map NinjaBuild rbs.*2 |} |} |}).
Proof.
  cbn [main]. rewrite run_build_eval.
  destruct (litani_cache f) as [text|] eqn:E; [|by left].
  right.
  destruct (compile_cases (jobs text) [] [])
    as [(Hvalid & rbs & Hrbs & ->)|(before & e & after & Hes & Hbefore & He & ->)].
  - right. by exists text, rbs.
  - left. by exists text, before, e, after.
Qed.

(** X5. [run-build] exits with status 0 or 1.  The status is 0 exactly when
    the cache file exists and all its records have the three required keys;
    then nothing is printed and [litani.ninja] exists afterwards.  With any
    other status the files are as they were.  In no case is the cache file
    changed. *)
Theorem run_build_status (f : FS) :
  let r := run (main RunBuild) f in
  (exit_status r = 0%Z ∨ exit_status r = 1%Z)
  ∧ (exit_status r = 0%Z ↔
     ∃ text, litani_cache f = Some text ∧ Forall Entry.valid (jobs text))
  ∧ (exit_status r = 0%Z ∧ printed r = [] ∧ is_Some (litani_ninja (files r))
     ∨ exit_status r = 1%Z ∧ files r = f)
  ∧ litani_cache (files r) = litani_cache f.
Proof.
  cbv zeta. unfold exit_status.
  destruct (run_build_cases f)
    as [[E ->]|[(text & before & e & after & E & Hes & Hbefore & He & ->)
               |(text & rbs & E & Hvalid & Hrbs & ->)]]; cbn.
  - split_and!; [by right| |by right|done].
    split; [done|]. intros (text & ? & _). congruence.
  - split_and!; [by right| |by right|done].
    split; [done|]. intros (text' & Htext & Hvalid).
    assert (text' = text) as -> by congruence.
    rewrite Hes in Hvalid. apply Forall_app in Hvalid as [_ Hvalid].
    by apply Forall_cons in Hvalid as [? _].
  - split_and!; [by left| |left; by split_and!|done].
    split; [|done]. intros _. by exists text.
Qed.

(** X6. Running [run-build] again on the files it left gives the same
    outcome, the same output and the same files. *)
Theorem run_build_idempotent (f : FS) :
  run (main RunBuild) (files (run (main RunBuild) f)) = run (main RunBuild) f.
Proof.
  cbn [main]. rewrite (run_build_eval RunBuild f).
  destruct (litani_cache f) as [text|] eqn:E;
    [destruct (compile (jobs text) [] []) as [e|[rules builds]] eqn:C|];
    cbn [files]; rewrite run_build_eval; cbn [litani_cache];
    by rewrite ?E, ?C.
Qed.

(** X7. [litani.ninja] is overwritten, not appended to: when [run-build]
    succeeds, its result does not depend on whether the file existed or on
    what it held. *)
Theorem run_build_overwrites (f : FS) (ninja : option NinjaFile) :
  exit_status (run (main RunBuild) f) = 0%Z →
  run (main RunBuild) {| litani_cache := litani_cache f; litani_ninja := ninja |} =
  run (main RunBuild) f.
Proof.
  unfold exit_status. cbn [main]. rewrite !run_build_eval. cbn [litani_cache].
  destruct (litani_cache f) as [text|]; [|discriminate].
  by destruct (compile (jobs text) [] []) as [e|[rules builds]].
Qed.

Lemma run_build_overwrites_witness :
  let f := cache_with [job ["a.c"] "cc -c a.c" ["a.o"]] in
  let old := {| width := 70;
                stmts := [NinjaRule {| Rule.name := "old";
                                       Rule.description := "stale";
                                       Rule.command := "false" |}] |} in
  run (main RunBuild) {| litani_cache := litani_cache f; litani_ninja := Some old |} =
  run (main RunBuild) f.
Proof.
  intros f old. apply (run_build_overwrites f (Some old)). reflexivity.
Defined.

Lemma compiled_rule_name (es : list Entry.t) (rbs : list (Rule.t * Build.t)) :
  Forall2 (λ e rb, compile_entry e = Some rb) es rbs →
  Forall (λ rb, Build.rule rb.2 = Rule.name rb.1) rbs.
Proof.
  induction 1 as [|e [r b] es rbs E _ IH]; constructor; [|exact IH].
  by apply compile_entry_fields in E as (_ & _ & _ & _ & _ & ?).
Qed.

(** X8. In the file a successful [run-build] writes, every build statement
    refers to a rule that the file declares, and the declaration comes
    before the build statement. *)
Theorem run_build_declares_rules (f : FS) (ninja : NinjaFile) (j : nat) (b : Build.t) :
  exit_status (run (main RunBuild) f) = 0%Z →
  litani_ninja (files (run (main RunBuild) f)) = Some ninja →
  stmts ninja !! j = Some (NinjaBuild b) →
  ∃ i r, i < j ∧ stmts ninja !! i = Some (NinjaRule r) ∧ Rule.name r = Build.rule b.
Proof.
  unfold exit_status.
  destruct (run_build_cases f)
    as [[E ->]|[(text & before & e & after & E & Hes & Hbefore & He & ->)
               |(text & rbs & E & Hvalid & Hrbs & ->)]]; cbn; try discriminate.
  intros _ [= <-]. cbn [stmts].
  change (map NinjaRule rbs.*1) with (NinjaRule <$> rbs.*1).
  change (map NinjaBuild rbs.*2) with (NinjaBuild <$> rbs.*2).
  intros Hj. apply lookup_app_Some in Hj as [Hj|[Hlen Hj]].
  { apply list_lookup_fmap_Some in Hj as (r & ? & _). discriminate. }
  rewrite !length_fmap in Hlen, Hj.
  apply list_lookup_fmap_Some in Hj as (b' & [= <-] & Hj).
  apply list_lookup_fmap_Some in Hj as ([r b'] & -> & Hj).
  exists (j - length rbs), r.
  pose proof (lookup_lt_Some _ _ _ Hj) as Hlt.
  repeat split.
  - lia.
  - rewrite lookup_app_l by (rewrite !length_fmap; lia).
    by rewrite !list_lookup_fmap, Hj.
  - pose proof (compiled_rule_name _ _ Hrbs) as Hnames.
    by rewrite (proj1 (Forall_lookup _ _) Hnames _ _ Hj).
Qed.

Lemma run_build_declares_rules_witness :
  let f := cache_with [job ["a.c"] "cc -c a.c" ["a.o"];
                       job ["a.o"] "ld a.o" ["a.out"]] in
  ∃ i r, i < 3
         ∧ [NinjaRule {| Rule.name := "cccac";
                         Rule.description := "Running 'cc -c a.c...'";
                         Rule.command := "cc -c a.c" |};
            NinjaRule {| Rule.name := "ldao";
                         Rule.description := "Running 'ld a.o...'";
                         Rule.command := "ld a.o" |};
            NinjaBuild {| Build.inputs := ["a.c"]; Build.outputs := ["a.o"];
                          Build.rule := "cccac" |};
            NinjaBuild {| Build.inputs := ["a.o"]; Build.outputs := ["a.out"];
                          Build.rule := "ldao" |}] !! i = Some (NinjaRule r)
         ∧ Rule.name r = "ldao".
Proof.
  intros f.
  exact (run_build_declares_rules f _ 3
           {| Build.inputs := ["a.o"]; Build.outputs := ["a.out"];
              Build.rule := "ldao" |} eq_refl eq_refl eq_refl).
Defined.

(** X9. [run-build] takes the description of a job record from its
    [description] key whenever the key is present, even when the value is
    the empty string; only a record without the key gets
    [Running '<command>...']. *)
Theorem run_build_description (f : FS) (text : JsonFile) (i : nat) (e : Entry.t) :
  litani_cache f = Some text →
  Forall Entry.valid (jobs text) →
  jobs text !! i = Some e →
  ∃ rules builds r c,
    litani_ninja (files (run (main RunBuild) f)) =
      Some {| width := 70;
              stmts := map NinjaRule rules ++ map NinjaBuild builds |}
    ∧ rules !! i = Some r
    ∧ Entry.command e = Some c
    ∧ Rule.description r =
        match Entry.description e with
        | Some description => description
        | None => "Running '" +:+ c +:+ "...'"
        end.
Proof.
  intros E Hvalid Hi.
  destruct (run_build_valid f text E Hvalid) as (rbs & Hrbs & ->).
  destruct (compiled_lookup _ _ _ _ Hrbs Hi) as (r & b & Hr & _ & Hc).
  apply compile_entry_fields in Hc as (Hcmd & _ & Hdesc & _).
  exists rbs.*1, rbs.*2, r, (Rule.command r). repeat split; try done.
Qed.

Lemma run_build_description_witness :
  let e := {| Entry.inputs := Some ["a"]; Entry.outputs := Some ["b"];
              Entry.command := Some "cp a b";
              Entry.description := Some EmptyString |} in
  ∃ rules builds r c,
    litani_ninja (files (run (main RunBuild) (cache_with [e]))) =
      Some {| width := 70;
              stmts := map NinjaRule rules ++ map NinjaBuild builds |}
    ∧ rules !! 0 = Some r
    ∧ Entry.command e = Some c
    ∧ Rule.description r = EmptyString.
Proof.
  intros e.
  apply (run_build_description (cache_with [e]) {| indent := Some 2; jobs := [e] |}
           0 e); [reflexivity| |reflexivity].
  repeat constructor; cbn; eauto.
Defined.

(** ** [add_job] and [run_build] together *)

Lemma run_all_cons (m : Py unit) (ms : list (Py unit)) (f : FS) :
  run_all (m :: ms) f = run_all ms (files (run m f)).
Proof. reflexivity. Qed.

(** After at least one [add-job] the cache file exists, with indentation 2. *)
Lemma run_all_add_job_cache (a : Args.t) (calls : list Args.t) (f : FS) :
  run_all (main ∘ AddJob <$> a :: calls) f =
  {| litani_cache :=
       Some {| indent := Some 2;
               jobs := registry f ++ (job_record <$> a :: calls) |};
     litani_ninja := litani_ninja f |}.
Proof.
  revert a f. induction calls as [|b calls IH]; intros a f.
  - cbn. by rewrite add_job_eval.
  - rewrite fmap_cons, run_all_cons, IH. cbn [compose main].
    rewrite add_job_eval. cbn [files registry litani_cache litani_ninja jobs].
    by rewrite <- app_assoc.
Qed.

Lemma compile_job_records (calls : list Args.t) :
  Forall2 (λ e rb, compile_entry e = Some rb)
    (job_record <$> calls)
    ((λ args, ({| Rule.name := to_rule_name (Args.command args);
                  Rule.description :=
                    if truthy (Args.description args)
                    then default EmptyString (Args.description args)
                    else "Running '" +:+ Args.command args +:+ "...'";
                  Rule.command := Args.command args |},
               {| Build.inputs := Args.inputs args;
                  Build.outputs := Args.outputs args;
                  Build.rule := to_rule_name (Args.command args) |})) <$> calls).
Proof.
  induction calls as [|a calls IH]; constructor; [|exact IH].
  unfold compile_entry, job_record. cbn.
  by destruct (Args.description a) as [[|c d]|].
Qed.

(** X10. A registry built by [add-job] alone always compiles: after one or
    more [add-job] invocations on no files, [run-build] returns with status
    0, prints nothing and writes one rule and one build per invocation, in
    call order, from the command, inputs and outputs given; the rule's
    description is the one given if it is not empty, and
    [Running '<command>...'] otherwise. *)
Theorem add_jobs_then_run_build (a : Args.t) (calls : list Args.t) :
  run (main RunBuild) (run_all (main ∘ AddJob <$> a :: calls) no_files) =
  {| outcome := inr tt;
     printed := [];
     files :=
       {| litani_cache :=
            Some {| indent := Some 2; jobs := job_record <$> a :: calls |};
          litani_ninja :=
            Some {| width := 70;
                    stmts :=
                      map NinjaRule
                        ((λ args,
                            {| Rule.name := to_rule_name (Args.command args);
                               Rule.description :=
                                 if truthy (Args.description args)
                                 then default EmptyString (Args.description args)
                                 else "Running '" +:+ Args.command args +:+ "...'";
                               Rule.command := Args.command args |})
                           <$> a :: calls) ++
                      map NinjaBuild
                        ((λ args,
                            {| Build.inputs := Args.inputs args;
                               Build.outputs := Args.outputs args;
                               Build.rule := to_rule_name (Args.command args) |})
                           <$> a :: calls) |} |} |}.
Proof.
  rewrite run_all_add_job_cache. cbn [main registry no_files litani_cache app].
  rewrite run_build_eval. cbn [litani_cache litani_ninja jobs].
  rewrite (compile_all _ _ [] [] (compile_job_records (a :: calls))).
  cbn [app]. by rewrite <- !list_fmap_compose.
Qed.

Lemma registry_run_build (f : FS) :
  registry (files (run (main RunBuild) f)) = registry f.
Proof.
  unfold registry.
  by destruct (run_build_cases f)
    as [[E ->]|[(text & before & e & after & E & Hes & Hbefore & He & ->)
               |(text & rbs & E & Hvalid & Hrbs & ->)]].
Qed.

(** X11. In any sequence of [add-job] and [run-build] invocations, the
    registry at the end is the registry at the start followed by the jobs of
    the [add-job] invocations, in order: a [run-build] in between, whether it
    succeeds or fails, changes nothing in what later invocations see. *)
Theorem run_build_between_add_jobs (cmds : list subcommand) (f : FS) :
  registry (run_all (main <$> cmds) f) = registry f ++ omap added_job cmds.
Proof.
  revert f. induction cmds as [|cmd cmds IH]; intros f.
  - cbn. by rewrite app_nil_r.
  - rewrite fmap_cons, run_all_cons, IH. destruct cmd as [a|].
    + cbn [main]. rewrite add_job_eval. cbn. by rewrite <- app_assoc.
    + by rewrite registry_run_build.
Qed.

Lemma run_build_invalid (f : FS) (before : list Entry.t) (e : Entry.t)
    (after : list Entry.t) :
  registry f = before ++ e :: after →
  Forall Entry.valid before → ¬ Entry.valid e →
  run (main RunBuild) f =
  {| outcome := inl (SystemExit 1); printed := [e]; files := f |}.
Proof.
  unfold registry. intros Hes Hbefore He. cbn [main]. rewrite run_build_eval.
  destruct (litani_cache f) as [text|]; [|by destruct before].
  by rewrite Hes, (compile_first_invalid _ _ _ _ _ Hbefore He).
Qed.

(** X12. [add-job] does not repair a registry: when a record of the registry
    lacks a required key, [run-build] prints the same record and exits with
    status 1 after any number of further [add-job] invocations, as it did
    before them. *)
Theorem add_job_keeps_invalid_records (f : FS) (calls : list Args.t) :
  Exists (λ e, ¬ Entry.valid e) (registry f) →
  let f' := run_all (main ∘ AddJob <$> calls) f in
  outcome (run (main RunBuild) f') = inl (SystemExit 1)
  ∧ outcome (run (main RunBuild) f) = inl (SystemExit 1)
  ∧ printed (run (main RunBuild) f') = printed (run (main RunBuild) f)
  ∧ length (printed (run (main RunBuild) f)) = 1.
Proof.
  intros Hex f'.
  destruct (first_invalid _ Hex) as (before & e & after & Hes & Hbefore & He).
  rewrite (run_build_invalid f before e after Hes Hbefore He).
  rewrite (run_build_invalid f' before e (after ++ (job_record <$> calls)));
    try done.
  subst f'. rewrite run_all_add_job, Hes. by rewrite <- app_assoc.
Qed.

Lemma add_job_keeps_invalid_records_witness :
  let bad := {| Entry.inputs := None; Entry.outputs := Some ["a.o"];
                Entry.command := Some "cc -c a.c"; Entry.description := None |} in
  let f := cache_with [bad] in
  let f' := run_all (main ∘ AddJob <$> [scenario_1 "p" "build"]) f in
  outcome (run (main RunBuild) f') = inl (SystemExit 1)
  ∧ outcome (run (main RunBuild) f) = inl (SystemExit 1)
  ∧ printed (run (main RunBuild) f') = printed (run (main RunBuild) f)
  ∧ length (printed (run (main RunBuild) f)) = 1.
Proof.
  intros bad f.
  apply (add_job_keeps_invalid_records f [scenario_1 "p" "build"]).
  apply Exists_cons_hd. intros (H & _). by apply is_Some_None in H.
Defined.

(** X13. Adding a job to a registry of valid records leaves the statements
    of the earlier jobs as they were: the rules and builds [run-build] writes
    afterwards are the ones it wrote before, each followed by one statement
    for the new job. *)
Theorem add_job_extends_build (f : FS) (text : JsonFile) (args : Args.t) :
  litani_cache f = Some text →
  Forall Entry.valid (jobs text) →
  ∃ rules builds r b,
    litani_ninja (files (run (main RunBuild) f)) =
      Some {| width := 70;
              stmts := map NinjaRule rules ++ map NinjaBuild builds |}
    ∧ litani_ninja
        (files (run (main RunBuild) (files (run (main (AddJob args)) f)))) =
      Some {| width := 70;
              stmts := map NinjaRule (rules ++ [r]) ++
                       map NinjaBuild (builds ++ [b]) |}
    ∧ length rules = length (jobs text)
    ∧ length builds = length (jobs text)
    ∧ Rule.command r = Args.command args
    ∧ Rule.name r = to_rule_name (Args.command args)
    ∧ Build.inputs b = Args.inputs args
    ∧ Build.outputs b = Args.outputs args
    ∧ Build.rule b = to_rule_name (Args.command args).
Proof.
  intros E Hvalid.
  destruct (run_build_valid f text E Hvalid) as (rbs & Hrbs & ->).
  pose proof (compile_job_records [args]) as Hargs.
  cbn [fmap list_fmap] in Hargs.
  match type of Hargs with Forall2 _ _ [?x] => set (rb := x) in Hargs end.
  pose proof (Forall2_app Hrbs Hargs) as Hall.
  exists rbs.*1, rbs.*2, rb.1, rb.2.
  cbn [main]. rewrite add_job_eval, run_build_eval.
  cbn [files litani_cache litani_ninja jobs]. unfold registry. rewrite E.
  rewrite (compile_all _ _ [] [] Hall). cbn [app].
  rewrite !fmap_app. cbn [fmap list_fmap].
  rewrite !length_fmap, (Forall2_length _ _ _ Hrbs). by repeat split.
Qed.

Lemma add_job_extends_build_witness :
  let f := cache_with [job ["x"] "touch y" ["y"]] in
  ∃ rules builds r b,
    litani_ninja (files (run (main RunBuild) f)) =
      Some {| width := 70;
              stmts := map NinjaRule rules ++ map NinjaBuild builds |}
    ∧ litani_ninja
        (files (run (main RunBuild)
                  (files (run (main (AddJob (scenario_1 "p" "build"))) f)))) =
      Some {| width := 70;
              stmts := map NinjaRule (rules ++ [r]) ++
                       map NinjaBuild (builds ++ [b]) |}
    ∧ length rules = 1
    ∧ length builds = 1
    ∧ Rule.command r = "gcc -c a.c -o a.o"
    ∧ Rule.name r = to_rule_name "gcc -c a.c -o a.o"
    ∧ Build.inputs b = ["a.c"]
    ∧ Build.outputs b = ["a.o"]
    ∧ Build.rule b = to_rule_name "gcc -c a.c -o a.o".
Proof.
  intros f.
  apply (add_job_extends_build f
           {| indent := Some 2; jobs := [job ["x"] "touch y" ["y"]] |}
           (scenario_1 "p" "build")); [reflexivity|].
  repeat constructor; cbn; eauto.
Defined.
